(** * Shallow embedding of src/src/utils/steganography.ts (LSB codec)
    and of the capacity computation of src/src/App.tsx.

    Binary strings of the source ('0'/'1' JavaScript strings) are modelled
    as [list bool], most significant bit first ([true] = '1').  The RGBA
    buffer of an ImageData ([Uint8ClampedArray]) is a [list Z]; a message
    string is the list of its UTF-16 code units ([list Z]), which is what
    [split('')], [charCodeAt(0)] and [.length] see. *)

From Stdlib Require Import ZArith Lia List Bool.
Import ListNotations.
Local Open Scope Z_scope.

(** ** JavaScript primitives on binary strings *)

(** Digits of a positive number, most significant first. *)
Fixpoint pos_bits (p : positive) : list bool :=
  match p with
  | xH => [true]
  | xO p' => pos_bits p' ++ [false]
  | xI p' => pos_bits p' ++ [true]
  end.

(** [n.toString(2)] for a non-negative integer [n]. *)
Definition toString2 (n : Z) : list bool :=
  match n with
  | Z0 => [false]
  | Zpos p => pos_bits p
  | Zneg p => pos_bits p (* not reached: every argument is non-negative *)
  end.

(** [s.padStart(w, '0')]: never truncates. *)
Definition padStart (w : nat) (s : list bool) : list bool :=
  repeat false (w - length s) ++ s.

(** [s.padEnd(w, '0')]. *)
Definition padEnd (w : nat) (s : list bool) : list bool :=
  s ++ repeat false (w - length s).

(** [s.substring(a, b)] for [a <= b]. *)
Definition substring (s : list bool) (a b : nat) : list bool :=
  firstn (b - a) (skipn a s).

Definition b2z (b : bool) : Z := if b then 1 else 0.

(** Value of a binary digit string, most significant first. *)
Definition bin_value (s : list bool) : Z :=
  fold_left (fun acc b => 2 * acc + b2z b) s 0.

(** [parseInt(s, 2)] on a string of binary digits: [NaN] (here [None])
    on the empty string. *)
Definition parseInt2 (s : list bool) : option Z :=
  match s with
  | [] => None
  | _ => Some (bin_value s)
  end.

(** [String.fromCharCode(x)]: ToUint16 of the number, [NaN] giving 0. *)
Definition fromCharCode (x : option Z) : Z :=
  match x with
  | Some n => n mod 65536
  | None => 0
  end.

(** Assignment into a [Uint8ClampedArray] clamps to [0, 255]
    (all values written here are integers). *)
Definition u8clamp (x : Z) : Z := Z.max 0 (Z.min 255 x).

(** [bin.match(/.{1,8}/g) || []]: consecutive chunks of 8, the last one
    possibly shorter. [fuel] bounds the number of chunks. *)
Fixpoint chunks8_fuel (fuel : nat) (s : list bool) : list (list bool) :=
  match fuel with
  | O => []
  | S fuel' =>
      match s with
      | [] => []
      | _ => firstn 8 s :: chunks8_fuel fuel' (skipn 8 s)
      end
  end.

Definition chunks8 (s : list bool) : list (list bool) :=
  chunks8_fuel (length s) s.

(** ** The helpers [stringToBin] and [binToString] *)

Definition stringToBin (str : list Z) : list bool :=
  concat (map (fun c => padStart 8 (toString2 c)) str).

Definition binToString (bin : list bool) : list Z :=
  map (fun byte => fromCharCode (parseInt2 byte)) (chunks8 bin).

(** ** encodeLSB *)

Definition is_alpha (i : Z) : bool := (i + 1) mod 4 =? 0.

(** The bit string [fullBinary]: the 32-bit length header followed by
    [stringToBin message]. *)
Definition lengthHeader (message : list Z) : list bool :=
  padStart 32 (toString2 (Z.of_nat (length message))).

Definition fullBinary (message : list Z) : list bool :=
  lengthHeader message ++ stringToBin message.

(** [parseInt(bitsToHide.padEnd(bitsPerChannel, '0'), 2)]; a [NaN]
    there would be written as 0 by the following [|]. *)
Definition valueToHide (k : Z) (bitsToHide : list bool) : Z :=
  match parseInt2 (padEnd (Z.to_nat k) bitsToHide) with
  | Some v => v
  | None => 0
  end.

(** The loop of [encodeLSB] from index [i]: [data] is the buffer from
    index [i] on, [bits] is [fullBinary.substring(bitIndex)].  The loop
    stops when the buffer ends or [bitIndex >= fullBinary.length]. *)
Fixpoint encode_loop (k mask i : Z) (data : list Z) (bits : list bool)
  : list Z :=
  match data with
  | [] => []
  | d :: data' =>
      match bits with
      | [] => d :: data'
      | _ :: _ =>
          if is_alpha i then d :: encode_loop k mask (i + 1) data' bits
          else
            let bitsToHide := firstn (Z.to_nat k) bits in
            u8clamp (Z.lor (Z.land d mask) (valueToHide k bitsToHide))
              :: encode_loop k mask (i + 1) data' (skipn (Z.to_nat k) bits)
      end
  end.

(** [SteganoResult], with the encoded pixel data in place of the
    PNG data URL rendered from it. *)
Record SteganoResult := {
  data_out : list Z;
  capacity : Z;
  messageLength : Z
}.

Definition encodeLSB (data : list Z) (message : list Z) (bitsPerChannel : Z)
  : SteganoResult :=
  let mask := Z.shiftl 255 bitsPerChannel in
  let len := Z.of_nat (length data) in
  {| data_out := encode_loop bitsPerChannel mask 0 data (fullBinary message);
     (* Math.floor((data.length * 3 / 4) * bitsPerChannel / 8) *)
     capacity := (len * 3 * bitsPerChannel) / 32;
     messageLength := Z.of_nat (length message) |}.

(** ** decodeLSB *)

Inductive decode_error := TooSmall | InvalidHeader | Truncated.

Inductive decode_result :=
| Ok (s : list Z)
| Err (e : decode_error).

(** Observable steps of [decodeLSB]: reading the byte at index [i] in
    extraction loop [phase] (1 or 2), and parsing the header. *)
Inductive event :=
| Extract (phase : nat) (i : Z)
| ParseHeader.

(** [(data[i] & bitMask).toString(2).padStart(bitsPerChannel, '0')] *)
Definition chunk_bits (k : Z) (d : Z) : list bool :=
  padStart (Z.to_nat k) (toString2 (Z.land d (Z.shiftl 1 k - 1))).

(** One extraction loop of [decodeLSB]:
    [while (binaryString.length < target && i < data.length)].
    [rest] is the buffer from index [i] on; returns the new
    [binaryString], the new [i], the rest of the buffer and the trace. *)
Fixpoint extract (phase : nat) (k target i : Z) (rest : list Z)
  (acc : list bool) : list bool * Z * list Z * list event :=
  match rest with
  | [] => (acc, i, [], [])
  | d :: rest' =>
      if Z.of_nat (length acc) <? target then
        if is_alpha i then extract phase k target (i + 1) rest' acc
        else
          let '(a, j, r, ev) :=
            extract phase k target (i + 1) rest' (acc ++ chunk_bits k d) in
          (a, j, r, Extract phase i :: ev)
      else (acc, i, rest, [])
  end.

(** [decodeLSB].  [totalAvailableBits = (data.length / 4) * 3 * k] is a
    real number in the source; it is carried here as
    [4 * totalAvailableBits = data.length * 3 * k], so that
    [totalAvailableBits < 32] is [len * 3 * k < 128] and
    [Math.floor((totalAvailableBits - 32) / 8)] is
    [(len * 3 * k - 128) / 32] (floor division), exactly. *)
Definition decodeLSB (data : list Z) (bitsPerChannel : Z)
  : decode_result * list event :=
  let k := bitsPerChannel in
  let totalAvailableBits4 := Z.of_nat (length data) * 3 * k in
  if totalAvailableBits4 <? 128 then (Err TooSmall, [])
  else
    let '(binary1, i1, rest1, ev1) := extract 1 k 32 0 data [] in
    let lengthBits := substring binary1 0 32 in
    let ev1' := ev1 ++ [ParseHeader] in
    let maxPossibleBytes := (totalAvailableBits4 - 128) / 32 in
    match parseInt2 lengthBits with
    | None => (Err InvalidHeader, ev1')
    | Some messageLength =>
        if (messageLength <=? 0) || (maxPossibleBytes <? messageLength)
        then (Err InvalidHeader, ev1')
        else
          let requiredBits := 32 + messageLength * 8 in
          let '(binary2, _, _, ev2) :=
            extract 2 k requiredBits i1 rest1 binary1 in
          if Z.of_nat (length binary2) <? requiredBits
          then (Err Truncated, ev1' ++ ev2)
          else (Ok (binToString
                      (substring binary2 32 (Z.to_nat requiredBits))),
                ev1' ++ ev2)
    end.

(** ** Capacity shown by App.tsx (useEffect on image, scale and bits).
    The scale slider moves in steps of 0.5, so the scale is carried as
    [scale2 = 2 * scale]; [pixels = (w * scale) * (h * scale)] is then
    [w * h * scale2^2 / 4] and [Math.floor(pixels * 3 * k / 8)] is
    [(w * h * scale2^2 * 3 * k) / 32] exactly. *)
Definition app_capacity (width height scale2 bitsPerChannel : Z) : Z :=
  let bytes := (width * height * scale2 * scale2 * 3 * bitsPerChannel) / 32 - 4 in
  Z.max 0 bytes.

(** Capacity at scale 1, the [capacityBytes] helper of the spec. *)
Definition capacityBytes (width height k : Z) : Z :=
  app_capacity width height 2 k.

(** [scaleImage]: [canvas.width = img.width * scale]; the canvas stores
    the dimension as an unsigned long, truncating [w * scale2 / 2]. *)
Definition scaled_dim (w scale2 : Z) : Z := (w * scale2) / 2.

(** The encode branch of [handleProcess] in App.tsx: the image is scaled
    with [scaleImage], the message is refused when
    [message.length > capacity] (the capacity state computed by the
    useEffect above), and [encodeLSB] is applied to the scaled canvas.
    The pixels [drawImage] renders into the scaled canvas are not modelled:
    they are the argument [scaled].  [None] is the thrown
    "Message too long" error. *)
Definition app_encode (w h scale2 k : Z) (scaled message : list Z)
  : option (list Z) :=
  if Z.of_nat (length message) >? app_capacity w h scale2 k then None
  else Some (encode_loop k (Z.shiftl 255 k) 0 scaled (fullBinary message)).

(** ** Auxiliary views used in the statements *)

(** The full stream of bits [decodeLSB] can extract from index [i]:
    [k] low bits of every non-alpha byte, in order. *)
Fixpoint lsb_stream (k i : Z) (data : list Z) : list bool :=
  match data with
  | [] => []
  | d :: data' =>
      (if is_alpha i then [] else chunk_bits k d) ++ lsb_stream k (i + 1) data'
  end.

Definition pixelCount (data : list Z) : Z := Z.of_nat (length data) / 4.

Definition capacityBits (data : list Z) (k : Z) : Z := pixelCount data * 3 * k.

Definition is_byte (d : Z) : Prop := 0 <= d < 256.

Definition encode (data message : list Z) (k : Z) : list Z :=
  data_out (encodeLSB data message k).

Definition decode (data : list Z) (k : Z) : decode_result :=
  fst (decodeLSB data k).
(** Fixed-width binary digits of [x], most significant first:
    [tb n x = [testbit x (n-1); ...; testbit x 0]]. *)
Fixpoint tb (n : nat) (x : Z) : list bool :=
  match n with
  | O => []
  | S n' => Z.testbit x (Z.of_nat n') :: tb n' x
  end.

(** Number of non-alpha indices among [i0, i0 + j). *)
Fixpoint nonalpha_count (i0 : Z) (j : nat) : nat :=
  match j with
  | O => O
  | S j' => (if is_alpha i0 then 0 else 1) + nonalpha_count (i0 + 1) j'
  end%nat.

(** The header as decode sees it: the first 32 extractable bits. *)
Definition header_of (data : list Z) (k : Z) : option Z :=
  parseInt2 (firstn 32 (lsb_stream k 0 data)).

Definition header_invalid (h : option Z) (maxBytes : Z) : Prop :=
  match h with
  | None => True
  | Some m => m <= 0 \/ maxBytes < m
  end.

(** Linear arithmetic with [div] and [mod] by constants. *)
Ltac zmod := Z.div_mod_to_equations; lia.

(** ** Binary digit strings *)

Section Bits.

Lemma tb_length n x : length (tb n x) = n.
Proof. induction n; simpl; auto. Qed.

Lemma tb_double n x b :
  tb (S n) (2 * x + b2z b) = tb n x ++ [b].
Proof.
  induction n.
  - destruct b; unfold b2z; cbv [tb Z.of_nat app].
    + rewrite Z.testbit_odd_0. reflexivity.
    + rewrite Z.add_0_r, Z.testbit_even_0. reflexivity.
  - change (tb (S (S n)) (2 * x + b2z b))
      with (Z.testbit (2 * x + b2z b) (Z.of_nat (S n)) :: tb (S n) (2 * x + b2z b)).
    rewrite IHn.
    change (tb (S n) x) with (Z.testbit x (Z.of_nat n) :: tb n x).
    rewrite <- app_comm_cons. f_equal.
    rewrite Nat2Z.inj_succ. destruct b; simpl.
    + apply Z.testbit_odd_succ. lia.
    + rewrite Z.add_0_r. apply Z.testbit_even_succ. lia.
Qed.

Lemma bin_value_snoc l b : bin_value (l ++ [b]) = 2 * bin_value l + b2z b.
Proof. unfold bin_value. rewrite fold_left_app. reflexivity. Qed.

Lemma tb_bin_value l : tb (length l) (bin_value l) = l.
Proof.
  induction l as [|b l IH] using rev_ind; [reflexivity|].
  rewrite length_app, Nat.add_comm, bin_value_snoc. simpl plus.
  rewrite tb_double, IH. reflexivity.
Qed.

Lemma bin_value_bound l : 0 <= bin_value l < 2 ^ Z.of_nat (length l).
Proof.
  induction l as [|b l IH] using rev_ind; [cbv; split; congruence|].
  rewrite bin_value_snoc, length_app, Nat2Z.inj_add, Z.pow_add_r by lia.
  destruct b; simpl b2z; simpl (Z.of_nat (length [_])); lia.
Qed.

Lemma b2z_odd x : x mod 2 = b2z (Z.odd x).
Proof. rewrite Zmod_odd. destruct (Z.odd x); reflexivity. Qed.

Lemma tb_succ_div2 n x : tb (S n) x = tb n (x / 2) ++ [Z.odd x].
Proof.
  rewrite <- tb_double. f_equal.
  rewrite <- b2z_odd. apply Z.div_mod. lia.
Qed.

Lemma mod_double x N :
  0 < N -> x mod (2 * N) = x mod 2 + 2 * ((x / 2) mod N).
Proof.
  intro HN. symmetry. apply Z.mod_unique with (q := (x / 2) / N).
  - pose proof (Z.mod_pos_bound x 2). pose proof (Z.mod_pos_bound (x / 2) N).
    lia.
  - pose proof (Z.div_mod x 2). pose proof (Z.div_mod (x / 2) N). lia.
Qed.

Lemma bin_value_tb n x : bin_value (tb n x) = x mod 2 ^ Z.of_nat n.
Proof.
  revert x. induction n; intro x.
  - simpl. rewrite Z.mod_1_r. reflexivity.
  - rewrite tb_succ_div2, bin_value_snoc, IHn, <- b2z_odd.
    rewrite Nat2Z.inj_succ, Z.pow_succ_r by lia.
    rewrite mod_double by lia. lia.
Qed.

Lemma tb_high m j x :
  0 <= x < 2 ^ Z.of_nat j -> tb (m + j) x = repeat false m ++ tb j x.
Proof.
  intro Hx. induction m; [reflexivity|].
  simpl. rewrite IHm. f_equal.
  rewrite <- (Z.mod_small x (2 ^ Z.of_nat j)) by lia.
  apply Z.mod_pow2_bits_high. lia.
Qed.

Lemma tb_zero n : tb n 0 = repeat false n.
Proof.
  induction n; simpl; [reflexivity|]. rewrite IHn, Z.testbit_0_l. reflexivity.
Qed.

Lemma pos_bits_tb p : pos_bits p = tb (length (pos_bits p)) (Zpos p).
Proof.
  induction p as [p IH|p IH|]; simpl; try reflexivity;
    rewrite length_app, Nat.add_comm; simpl plus.
  - rewrite Pos2Z.inj_xI, tb_double with (b := true) at 1.
    rewrite <- IH. reflexivity.
  - replace (Zpos p~0) with (2 * Zpos p + b2z false) by (simpl; lia).
    rewrite tb_double, <- IH. reflexivity.
Qed.

Lemma pos_bits_bound p : Zpos p < 2 ^ Z.of_nat (length (pos_bits p)).
Proof.
  induction p as [p IH|p IH|]; simpl; try lia;
    rewrite length_app, Nat.add_comm; simpl plus;
    rewrite Nat2Z.inj_succ, Z.pow_succ_r by lia; lia.
Qed.

Lemma pos_bits_length p w :
  Zpos p < 2 ^ Z.of_nat w -> (length (pos_bits p) <= w)%nat.
Proof.
  revert w. induction p as [p IH|p IH|]; intros w Hw; simpl.
  - rewrite length_app. simpl. destruct w as [|w]; [simpl in Hw; lia|].
    rewrite Nat2Z.inj_succ, Z.pow_succ_r in Hw by lia.
    specialize (IH w ltac:(lia)). lia.
  - rewrite length_app. simpl. destruct w as [|w]; [simpl in Hw; lia|].
    rewrite Nat2Z.inj_succ, Z.pow_succ_r in Hw by lia.
    specialize (IH w ltac:(lia)). lia.
  - destruct w; [simpl in Hw; lia|]. lia.
Qed.

Lemma padStart_toString2 w x :
  (1 <= w)%nat -> 0 <= x < 2 ^ Z.of_nat w ->
  padStart w (toString2 x) = tb w x.
Proof.
  intros Hw Hx. unfold padStart. destruct x as [|p|p]; [| |lia].
  - simpl. rewrite tb_zero. destruct w as [|w]; [lia|].
    replace (S w - 1)%nat with w by lia.
    induction w; [reflexivity|]. simpl. rewrite IHw by lia. reflexivity.
  - simpl toString2. pose proof (pos_bits_length p w ltac:(lia)).
    rewrite pos_bits_tb at 2.
    rewrite <- tb_high by (pose proof (pos_bits_bound p); lia).
    f_equal. lia.
Qed.

Lemma parseInt2_tb n x :
  (1 <= n)%nat -> parseInt2 (tb n x) = Some (x mod 2 ^ Z.of_nat n).
Proof.
  intro Hn. destruct n; [lia|]. unfold parseInt2. simpl tb.
  rewrite <- bin_value_tb. reflexivity.
Qed.

End Bits.

(** ** One byte written by the encoder

    For [k] in [1, 4], a byte [d] and a value [v < 2^k], the value
    [(d & (255 << k)) | v] is checked exhaustively. *)

Definition zrange (n : nat) : list Z := map Z.of_nat (seq 0 n).

Definition byte_write_ok (k d v : Z) : bool :=
  let w := Z.lor (Z.land d (Z.shiftl 255 k)) v in
  (0 <=? w) && (w <=? 255)
  && (Z.land w (Z.shiftl 1 k - 1) =? v)
  && (Z.land w (Z.lnot (2 ^ k - 1)) =? Z.land d (Z.lnot (2 ^ k - 1))).

Definition byte_write_table : bool :=
  forallb (fun k =>
    forallb (fun d =>
      forallb (fun v => byte_write_ok k d v) (zrange (Z.to_nat (2 ^ k))))
    (zrange 256)) [1; 2; 3; 4].

(** Writing the same value a second time over a written byte. *)
Definition byte_rewrite_ok (k d v : Z) : bool :=
  let w := Z.lor (Z.land d (Z.shiftl 255 k)) v in
  Z.lor (Z.land w (Z.shiftl 255 k)) v =? w.

Definition byte_rewrite_table : bool :=
  forallb (fun k =>
    forallb (fun d =>
      forallb (fun v => byte_rewrite_ok k d v) (zrange (Z.to_nat (2 ^ k))))
    (zrange 256)) [1; 2; 3; 4].

Section ByteWrite.

Lemma byte_write_table_true : byte_write_table = true.
Proof. vm_compute. reflexivity. Qed.

Lemma in_zrange x n : 0 <= x < Z.of_nat n -> In x (zrange n).
Proof.
  intro H. unfold zrange. apply in_map_iff. exists (Z.to_nat x).
  split; [lia|]. apply in_seq. lia.
Qed.

Lemma byte_write_spec k d v :
  1 <= k <= 4 -> is_byte d -> 0 <= v < 2 ^ k -> byte_write_ok k d v = true.
Proof.
  intros Hk Hd Hv. pose proof byte_write_table_true as T.
  unfold byte_write_table in T. rewrite forallb_forall in T.
  assert (Kin : In k [1; 2; 3; 4]) by (simpl; lia).
  specialize (T k Kin). rewrite forallb_forall in T.
  specialize (T d (in_zrange d 256 ltac:(unfold is_byte in Hd; lia))).
  rewrite forallb_forall in T. apply T, in_zrange. rewrite Z2Nat.id; lia.
Qed.

Lemma byte_write_facts k d v :
  1 <= k <= 4 -> is_byte d -> 0 <= v < 2 ^ k ->
  let w := Z.lor (Z.land d (Z.shiftl 255 k)) v in
  u8clamp w = w /\ Z.land w (Z.shiftl 1 k - 1) = v /\
  Z.land w (Z.lnot (2 ^ k - 1)) = Z.land d (Z.lnot (2 ^ k - 1)).
Proof.
  intros Hk Hd Hv w. pose proof (byte_write_spec k d v Hk Hd Hv) as B.
  unfold byte_write_ok in B. fold w in B.
  repeat rewrite andb_true_iff in B. destruct B as [[[B1 B2] B3] B4].
  apply Z.leb_le in B1, B2. apply Z.eqb_eq in B3, B4.
  unfold u8clamp. repeat split; auto; lia.
Qed.

Lemma byte_rewrite_table_true : byte_rewrite_table = true.
Proof. vm_compute. reflexivity. Qed.

Lemma byte_rewrite_spec k d v :
  1 <= k <= 4 -> is_byte d -> 0 <= v < 2 ^ k ->
  let w := Z.lor (Z.land d (Z.shiftl 255 k)) v in
  Z.lor (Z.land w (Z.shiftl 255 k)) v = w.
Proof.
  intros Hk Hd Hv w. pose proof byte_rewrite_table_true as T.
  unfold byte_rewrite_table in T. rewrite forallb_forall in T.
  assert (Kin : In k [1; 2; 3; 4]) by (simpl; lia).
  specialize (T k Kin). rewrite forallb_forall in T.
  specialize (T d (in_zrange d 256 ltac:(unfold is_byte in Hd; lia))).
  rewrite forallb_forall in T. apply Z.eqb_eq, T, in_zrange.
  rewrite Z2Nat.id; lia.
Qed.

Lemma u8clamp_byte x : is_byte (u8clamp x).
Proof. unfold is_byte, u8clamp. lia. Qed.

End ByteWrite.

(** ** The bits of one byte, and the bits hidden in it *)

Section Chunks.

Variable k : Z.
Hypothesis Hk : 1 <= k <= 4.

Lemma pow_to_nat : 2 ^ Z.of_nat (Z.to_nat k) = 2 ^ k.
Proof. rewrite Z2Nat.id by lia. reflexivity. Qed.

Lemma chunk_bits_tb d : chunk_bits k d = tb (Z.to_nat k) (d mod 2 ^ k).
Proof.
  unfold chunk_bits. rewrite Z.shiftl_1_l.
  replace (2 ^ k - 1) with (Z.ones k) by (rewrite Z.ones_equiv; lia).
  rewrite Z.land_ones by lia. apply padStart_toString2; [lia|].
  rewrite pow_to_nat. apply Z.mod_pos_bound. lia.
Qed.

Lemma chunk_bits_length d : length (chunk_bits k d) = Z.to_nat k.
Proof. rewrite chunk_bits_tb. apply tb_length. Qed.

Lemma padEnd_length w s : (length s <= w)%nat -> length (padEnd w s) = w.
Proof. intro H. unfold padEnd. rewrite length_app, repeat_length. lia. Qed.

Lemma written_chunk d bits :
  is_byte d ->
  let bitsToHide := firstn (Z.to_nat k) bits in
  let w := u8clamp (Z.lor (Z.land d (Z.shiftl 255 k)) (valueToHide k bitsToHide)) in
  chunk_bits k w = padEnd (Z.to_nat k) bitsToHide /\
  Z.land w (Z.lnot (2 ^ k - 1)) = Z.land d (Z.lnot (2 ^ k - 1)).
Proof.
  intros Hd bitsToHide w.
  set (l := padEnd (Z.to_nat k) bitsToHide).
  assert (Hl : length l = Z.to_nat k).
  { apply padEnd_length. unfold bitsToHide. rewrite length_firstn. lia. }
  assert (Hv : valueToHide k bitsToHide = bin_value l).
  { unfold valueToHide. fold l. destruct l eqn:E; [simpl in Hl; lia|].
    reflexivity. }
  pose proof (bin_value_bound l) as Hb. rewrite Hl, pow_to_nat in Hb.
  destruct (byte_write_facts k d (bin_value l) Hk Hd Hb) as [C1 [C2 C3]].
  unfold w. rewrite Hv, C1. split; [|exact C3].
  unfold chunk_bits. rewrite C2.
  rewrite padStart_toString2 by (try rewrite pow_to_nat; lia).
  rewrite <- Hl at 1. apply tb_bin_value.
Qed.

End Chunks.

(** ** The extraction loops of decodeLSB *)

Section Extract.

Variables (phase : nat) (k target : Z).

Lemma extract_spec rest : forall i acc a j r ev,
  extract phase k target i rest acc = (a, j, r, ev) ->
  a ++ lsb_stream k j r = acc ++ lsb_stream k i rest /\
  (r = [] \/ target <= Z.of_nat (length a)) /\
  Forall (fun e => exists i', e = Extract phase i') ev.
Proof.
  induction rest as [|d rest IH]; intros i acc a j r ev H; cbn [extract] in H.
  - inversion H; subst. repeat split; auto.
  - cbn [lsb_stream]. destruct (Z.of_nat (length acc) <? target) eqn:Lt.
    + destruct (is_alpha i) eqn:A.
      * apply IH in H. simpl app. exact H.
      * destruct (extract phase k target (i + 1) rest (acc ++ chunk_bits k d))
          as [[[a' j'] r'] ev'] eqn:E.
        inversion H; subst. apply IH in E as [E1 [E2 E3]].
        rewrite app_assoc. repeat split; auto.
        constructor; eauto.
    + inversion H; subst. apply Z.ltb_ge in Lt.
      repeat split; auto.
Qed.

Lemma extract_prefix rest i acc a j r ev (N : nat) :
  extract phase k target i rest acc = (a, j, r, ev) ->
  Z.of_nat N <= target ->
  firstn N a = firstn N (acc ++ lsb_stream k i rest).
Proof.
  intros H HN. apply extract_spec in H as [E [[R|R] _]].
  - subst r. cbn [lsb_stream] in E. rewrite app_nil_r in E. now rewrite E.
  - rewrite <- E, firstn_app.
    replace (N - length a)%nat with 0%nat by lia. simpl. now rewrite app_nil_r.
Qed.

Lemma extract_short rest i acc a j r ev :
  extract phase k target i rest acc = (a, j, r, ev) ->
  Z.of_nat (length a) < target ->
  a = acc ++ lsb_stream k i rest.
Proof.
  intros H HN. apply extract_spec in H as [E [[R|R] _]]; [|lia].
  subst r. cbn [lsb_stream] in E. now rewrite app_nil_r in E.
Qed.

Lemma extract_le rest i acc a j r ev :
  extract phase k target i rest acc = (a, j, r, ev) ->
  (length a <= length (acc ++ lsb_stream k i rest))%nat.
Proof.
  intros H. apply extract_spec in H as [E _]. rewrite <- E, length_app. lia.
Qed.

End Extract.

(** ** The encoding loop *)

Section Encode.

Variable k : Z.
Hypothesis Hk : 1 <= k <= 4.

Let mask := Z.shiftl 255 k.
Let K := Z.to_nat k.

Lemma firstn_split (n m : nat) (l : list bool) :
  (n <= m)%nat -> firstn m l = firstn n l ++ firstn (m - n) (skipn n l).
Proof.
  revert m l. induction n as [|n IH]; intros m l H.
  - simpl. now rewrite Nat.sub_0_r.
  - destruct m as [|m]; [lia|]. destruct l as [|x l].
    + simpl. now rewrite firstn_nil.
    + simpl. rewrite (IH m l) by lia. reflexivity.
Qed.

Lemma encode_loop_length mk i data bits :
  length (encode_loop k mk i data bits) = length data.
Proof.
  revert i bits. induction data as [|d data IH]; intros i bits; [reflexivity|].
  destruct bits; simpl; [reflexivity|].
  destruct (is_alpha i); simpl; rewrite IH; reflexivity.
Qed.

Lemma encode_loop_no_bits mk i data : encode_loop k mk i data [] = data.
Proof. destruct data; reflexivity. Qed.

Lemma lsb_stream_length i data :
  length (lsb_stream k i data) = (K * nonalpha_count i (length data))%nat.
Proof.
  revert i. induction data as [|d data IH]; intro i; simpl; [lia|].
  rewrite length_app, IH. destruct (is_alpha i); simpl;
    [|rewrite chunk_bits_length by exact Hk]; unfold K; lia.
Qed.

Lemma nonalpha_count_mult4 q : forall i,
  i mod 4 = 0 -> nonalpha_count i (4 * q) = (3 * q)%nat.
Proof.
  induction q as [|q IH]; intros i Hi; [reflexivity|].
  replace (4 * S q)%nat with (S (S (S (S (4 * q))))) by lia.
  cbn [nonalpha_count]. unfold is_alpha.
  replace ((i + 1) mod 4 =? 0) with false by (symmetry; apply Z.eqb_neq; zmod).
  replace ((i + 1 + 1) mod 4 =? 0) with false by (symmetry; apply Z.eqb_neq; zmod).
  replace ((i + 1 + 1 + 1) mod 4 =? 0) with false
    by (symmetry; apply Z.eqb_neq; zmod).
  replace ((i + 1 + 1 + 1 + 1) mod 4 =? 0) with true
    by (symmetry; apply Z.eqb_eq; zmod).
  rewrite IH by zmod. lia.
Qed.

Lemma lsb_stream_capacity data :
  (length data mod 4 = 0)%nat ->
  Z.of_nat (length (lsb_stream k 0 data)) = capacityBits data k.
Proof.
  intro H. rewrite lsb_stream_length.
  assert (Hq : length data = (4 * (length data / 4))%nat)
    by (pose proof (Nat.div_mod (length data) 4 ltac:(lia)); lia).
  remember (length data / 4)%nat as q.
  rewrite Hq, nonalpha_count_mult4 by reflexivity.
  unfold capacityBits, pixelCount. rewrite Hq.
  assert (E : Z.of_nat (4 * q) / 4 = Z.of_nat q) by (rewrite Nat2Z.inj_mul; zmod).
  rewrite E. unfold K. lia.
Qed.

Lemma encode_stream_prefix data : forall i bits (m : nat),
  Forall is_byte data ->
  (m <= length bits)%nat ->
  (m <= length (lsb_stream k i data))%nat ->
  firstn m (lsb_stream k i (encode_loop k mask i data bits)) = firstn m bits.
Proof.
  induction data as [|d data IH]; intros i bits m Hb Hm Hs.
  - simpl in Hs. replace m with 0%nat by lia. reflexivity.
  - inversion Hb as [|? ? Hd Hb']; subst.
    destruct bits as [|b bs]; [simpl in Hm; replace m with 0%nat by lia; reflexivity|].
    cbn [encode_loop lsb_stream] in *. destruct (is_alpha i) eqn:A;
      cbn [lsb_stream]; rewrite A.
    + simpl app in *. apply IH; auto.
    + destruct (written_chunk k Hk d (b :: bs) Hd) as [W _].
      fold mask in W. rewrite W.
      rewrite length_app, chunk_bits_length in Hs by exact Hk. fold K in Hs |- *.
      set (bits := b :: bs) in *.
      assert (HK : length (firstn K bits) = Nat.min K (length bits))
        by apply length_firstn.
      destruct (le_lt_dec m K) as [Le|Lt].
      * rewrite firstn_app, padEnd_length by lia.
        replace (m - K)%nat with 0%nat by lia. rewrite app_nil_r.
        unfold padEnd. rewrite firstn_app.
        replace (m - length (firstn K bits))%nat with 0%nat by lia.
        rewrite app_nil_r, firstn_firstn. f_equal. lia.
      * assert (P : padEnd K (firstn K bits) = firstn K bits).
        { unfold padEnd. replace (K - length (firstn K bits))%nat with 0%nat
            by lia. apply app_nil_r. }
        rewrite P, (firstn_split K m bits) by lia.
        rewrite firstn_app, firstn_all2 by lia.
        replace (m - length (firstn K bits))%nat with (m - K)%nat by lia.
        f_equal. apply IH; auto; [rewrite length_skipn|]; lia.
Qed.

End Encode.

(** ** What the encoding loop changes, index by index *)

Section EncodeBytes.

Variable k : Z.
Hypothesis Hk : 1 <= k <= 4.

Let mask := Z.shiftl 255 k.

Lemma encode_loop_alpha mk data : forall i bits (j : nat),
  is_alpha (i + Z.of_nat j) = true ->
  nth_error (encode_loop k mk i data bits) j = nth_error data j.
Proof.
  induction data as [|d data IH]; intros i bits j A; [reflexivity|].
  destruct bits as [|b bs]; [now rewrite encode_loop_no_bits|].
  cbn [encode_loop]. destruct j as [|j].
  - rewrite Z.add_0_r in A. rewrite A. reflexivity.
  - replace (i + Z.of_nat (S j)) with (i + 1 + Z.of_nat j) in A by lia.
    destruct (is_alpha i); simpl; apply IH; exact A.
Qed.

Lemma encode_loop_upper data : forall i bits (j : nat) d d',
  Forall is_byte data ->
  nth_error data j = Some d ->
  nth_error (encode_loop k mask i data bits) j = Some d' ->
  Z.land d' (Z.lnot (2 ^ k - 1)) = Z.land d (Z.lnot (2 ^ k - 1)).
Proof.
  induction data as [|x data IH]; intros i bits j d d' Hb H1 H2;
    [destruct j; discriminate|].
  inversion Hb as [|? ? Hx Hb']; subst.
  destruct bits as [|b bs].
  { rewrite encode_loop_no_bits in H2. congruence. }
  cbn [encode_loop] in H2. destruct j as [|j]; simpl in H1.
  - inversion H1; subst. destruct (is_alpha i); simpl in H2; inversion H2; subst.
    + reflexivity.
    + apply (written_chunk k Hk d (b :: bs) Hx).
  - destruct (is_alpha i); simpl in H2; eapply IH; eauto.
Qed.

Lemma encode_loop_beyond mk data : forall i bits (j : nat),
  (length bits <= Z.to_nat k * nonalpha_count i j)%nat ->
  nth_error (encode_loop k mk i data bits) j = nth_error data j.
Proof.
  induction data as [|d data IH]; intros i bits j H; [reflexivity|].
  destruct bits as [|b bs]; [now rewrite encode_loop_no_bits|].
  destruct j as [|j]; [simpl in H; lia|].
  cbn [nonalpha_count] in H. cbn [encode_loop].
  destruct (is_alpha i); simpl; apply IH.
  - simpl in H. exact H.
  - rewrite length_skipn. simpl length in H |- *. nia.
Qed.

End EncodeBytes.

(** ** The result of decodeLSB in each case *)

Section Decode.

Variables (data : list Z) (k : Z).

Let T4 := Z.of_nat (length data) * 3 * k.
Let S := lsb_stream k 0 data.

Lemma decode_too_small : T4 < 128 -> decodeLSB data k = (Err TooSmall, []).
Proof.
  intro H. unfold decodeLSB. fold T4.
  destruct (T4 <? 128) eqn:E; [reflexivity|]. apply Z.ltb_ge in E. lia.
Qed.

Lemma decode_phase1 b1 i1 r1 ev1 :
  extract 1 k 32 0 data [] = (b1, i1, r1, ev1) ->
  parseInt2 (substring b1 0 32) = header_of data k /\
  b1 ++ lsb_stream k i1 r1 = S /\
  Forall (fun e => exists i', e = Extract 1 i') ev1.
Proof.
  intro E. pose proof (extract_prefix 1 k 32 data 0 [] _ _ _ _ 32 E ltac:(lia)) as P.
  apply extract_spec in E as [E1 [_ E3]].
  split; [|split; auto].
  unfold substring, header_of. simpl skipn. simpl Nat.sub. rewrite P. reflexivity.
Qed.

Lemma decode_invalid :
  128 <= T4 ->
  header_invalid (header_of data k) ((T4 - 128) / 32) ->
  exists ev, decodeLSB data k = (Err InvalidHeader, ev ++ [ParseHeader]) /\
             Forall (fun e => exists i', e = Extract 1 i') ev.
Proof.
  intros H Hinv. unfold decodeLSB. fold T4.
  destruct (T4 <? 128) eqn:E; [apply Z.ltb_lt in E; lia|].
  destruct (extract 1 k 32 0 data []) as [[[b1 i1] r1] ev1] eqn:E1.
  apply decode_phase1 in E1 as [Hh [_ Hev]].
  exists ev1. split; auto. rewrite Hh.
  destruct (header_of data k) as [m|]; [|reflexivity].
  simpl in Hinv.
  replace ((m <=? 0) || ((T4 - 128) / 32 <? m)) with true; [reflexivity|].
  symmetry. apply orb_true_iff.
  destruct Hinv; [left; apply Z.leb_le | right; apply Z.ltb_lt]; lia.
Qed.

Lemma decode_valid m :
  128 <= T4 ->
  header_of data k = Some m ->
  0 < m <= (T4 - 128) / 32 ->
  fst (decodeLSB data k) =
    if Z.of_nat (length S) <? 32 + m * 8 then Err Truncated
    else Ok (binToString (substring S 32 (Z.to_nat (32 + m * 8)))).
Proof.
  intros H Hh Hm. unfold decodeLSB. fold T4.
  destruct (T4 <? 128) eqn:E; [apply Z.ltb_lt in E; lia|].
  destruct (extract 1 k 32 0 data []) as [[[b1 i1] r1] ev1] eqn:E1.
  apply decode_phase1 in E1 as [Hp [HS _]].
  rewrite Hp, Hh.
  replace ((m <=? 0) || ((T4 - 128) / 32 <? m)) with false
    by (symmetry; apply orb_false_iff; split; [apply Z.leb_gt | apply Z.ltb_ge]; lia).
  set (R := 32 + m * 8).
  destruct (extract 2 k R i1 r1 b1) as [[[b2 i2] r2] ev2] eqn:E2.
  simpl fst.
  destruct (Z.of_nat (length b2) <? R) eqn:L.
  - apply Z.ltb_lt in L.
    pose proof (extract_short 2 k R r1 i1 b1 _ _ _ _ E2 L) as Es.
    rewrite HS in Es. rewrite Es in L.
    rewrite (proj2 (Z.ltb_lt _ _)) by lia. reflexivity.
  - apply Z.ltb_ge in L.
    pose proof (extract_le 2 k R r1 i1 b1 _ _ _ _ E2) as Le. rewrite HS in Le.
    rewrite (proj2 (Z.ltb_ge _ _)) by lia. f_equal. f_equal.
    unfold substring. rewrite !firstn_skipn_comm.
    replace (32 + (Z.to_nat R - 32))%nat with (Z.to_nat R) by lia.
    rewrite (extract_prefix 2 k R r1 i1 b1 _ _ _ _ (Z.to_nat R) E2) by lia.
    rewrite HS. reflexivity.
Qed.

Lemma decode_not_too_small :
  fst (decodeLSB data k) = Err TooSmall -> T4 < 128.
Proof.
  unfold decodeLSB. fold T4.
  destruct (T4 <? 128) eqn:E; [intros _; apply Z.ltb_lt; exact E|].
  destruct (extract 1 k 32 0 data []) as [[[b1 i1] r1] ev1].
  destruct (parseInt2 (substring b1 0 32)) as [m|]; [|discriminate].
  destruct ((m <=? 0) || ((T4 - 128) / 32 <? m)); [discriminate|].
  destruct (extract 2 k (32 + m * 8) i1 r1 b1) as [[[b2 i2] r2] ev2].
  destruct (Z.of_nat (length b2) <? 32 + m * 8); discriminate.
Qed.

End Decode.

(** ** Byte-valued payloads through stringToBin and binToString *)

Section Payload.

Lemma char_bits c : is_byte c -> padStart 8 (toString2 c) = tb 8 c.
Proof. intro H. apply padStart_toString2; [lia|]. unfold is_byte in H. simpl. lia. Qed.

Lemma stringToBin_bytes P :
  Forall is_byte P -> stringToBin P = concat (map (tb 8) P).
Proof.
  induction 1 as [|c P Hc _ IH]; [reflexivity|].
  unfold stringToBin in *. simpl. rewrite char_bits, IH by exact Hc. reflexivity.
Qed.

Lemma concat_tb8_length P : length (concat (map (tb 8) P)) = (8 * length P)%nat.
Proof.
  induction P as [|c P IH]; [reflexivity|].
  cbn [map concat]. rewrite length_app, tb_length, IH. simpl. lia.
Qed.

Lemma chunks8_concat P : forall fuel,
  (length P <= fuel)%nat ->
  chunks8_fuel fuel (concat (map (tb 8) P)) = map (tb 8) P.
Proof.
  induction P as [|c P IH]; intros fuel H; [destruct fuel; reflexivity|].
  destruct fuel as [|fuel]; [simpl in H; lia|].
  cbn [map concat]. cbn [chunks8_fuel].
  assert (E : tb 8 c ++ concat (map (tb 8) P) <> []) by (simpl; discriminate).
  destruct (tb 8 c ++ concat (map (tb 8) P)) eqn:D; [contradiction|].
  rewrite <- D.
  rewrite firstn_app, skipn_app, tb_length, firstn_all2, skipn_all2
    by (rewrite tb_length; lia).
  rewrite Nat.sub_diag. cbn [firstn skipn app]. rewrite app_nil_r.
  rewrite IH by (simpl in H; lia). reflexivity.
Qed.

Lemma binToString_bytes P :
  Forall is_byte P -> binToString (concat (map (tb 8) P)) = P.
Proof.
  intro H. unfold binToString, chunks8.
  rewrite chunks8_concat by (rewrite concat_tb8_length; lia).
  rewrite map_map. rewrite <- (map_id P) at 2. apply map_ext_Forall.
  eapply Forall_impl; [|exact H]. intros c Hc. cbv beta.
  rewrite parseInt2_tb by lia. unfold fromCharCode. unfold is_byte in Hc.
  change (2 ^ Z.of_nat 8) with 256.
  rewrite (Z.mod_small c 256), Z.mod_small; lia.
Qed.

Lemma chunks8_length n : forall fuel l,
  length l = (8 * n)%nat -> (n <= fuel)%nat ->
  length (chunks8_fuel fuel l) = n.
Proof.
  induction n as [|n IH]; intros fuel l Hl Hf.
  - destruct fuel; [reflexivity|]. destruct l; [reflexivity|]. simpl in Hl; lia.
  - destruct fuel as [|fuel]; [lia|]. destruct l as [|b l]; [simpl in Hl; lia|].
    cbn [chunks8_fuel length]. f_equal. apply IH; [|lia].
    rewrite length_skipn. simpl in Hl |- *. lia.
Qed.

Lemma binToString_length l n :
  length l = (8 * n)%nat -> length (binToString l) = n.
Proof.
  intro H. unfold binToString, chunks8. rewrite length_map.
  apply chunks8_length; lia.
Qed.

Lemma lengthHeader_tb P :
  Z.of_nat (length P) < 2 ^ 32 ->
  lengthHeader P = tb 32 (Z.of_nat (length P)).
Proof. intro H. apply padStart_toString2; [lia|]. simpl. lia. Qed.

End Payload.

(** ** Capacity arithmetic for buffers of whole pixels *)

Section Capacity.

Variables (data : list Z) (k : Z).
Hypothesis Hmul4 : (length data mod 4 = 0)%nat.

Lemma total4_capacity :
  Z.of_nat (length data) * 3 * k = 4 * capacityBits data k.
Proof.
  unfold capacityBits, pixelCount.
  assert (Hq : length data = (4 * (length data / 4))%nat)
    by (pose proof (Nat.div_mod (length data) 4 ltac:(lia)); lia).
  remember (length data / 4)%nat as q. rewrite Hq, Nat2Z.inj_mul.
  replace (Z.of_nat 4 * Z.of_nat q / 4) with (Z.of_nat q) by zmod. lia.
Qed.

Lemma maxBytes_capacity :
  (Z.of_nat (length data) * 3 * k - 128) / 32 = (capacityBits data k - 32) / 8.
Proof. rewrite total4_capacity. zmod. Qed.

End Capacity.

(** ** Properties of the codec *)

Lemma Forall_byte_repeat0 n : Forall is_byte (repeat 0 n).
Proof.
  apply Forall_forall. intros x Hx. apply repeat_spec in Hx. subst x.
  unfold is_byte. lia.
Qed.

(** C1 (counterexample): the empty payload satisfies the size bound of the
    round-trip property on a 4x4 all-zero buffer with k = 1, yet decoding
    the encoded buffer does not return it. *)
Lemma roundtrip_empty_counterexample :
  1 <= 1 <= 4 /\
  Z.of_nat (length (@nil Z)) * 8 + 32 <= capacityBits (repeat 0 64) 1 /\
  decode (encode (repeat 0 64) [] 1) 1 <> Ok [].
Proof. vm_compute. repeat split; congruence. Qed.

(** C1 (amended): for a buffer of bytes whose length is a multiple of 4,
    k in [1, 4], and a non-empty payload of byte-valued characters whose
    length fits the 32-bit header and satisfies
    [len(P) * 8 + 32 <= capacityBits], decoding the encoded buffer with
    the same k returns exactly the payload. *)
Theorem decode_encode_roundtrip data P k :
  1 <= k <= 4 -> Forall is_byte data -> (length data mod 4 = 0)%nat ->
  Forall is_byte P -> P <> [] -> Z.of_nat (length P) < 2 ^ 32 ->
  Z.of_nat (length P) * 8 + 32 <= capacityBits data k ->
  decode (encode data P k) k = Ok P.
Proof.
  intros Hk Hd H4 HP Hne H32 Hcap.
  set (n := Z.of_nat (length P)) in *.
  set (bits := fullBinary P).
  assert (Hbits : bits = tb 32 n ++ concat (map (tb 8) P)).
  { unfold bits, fullBinary. rewrite lengthHeader_tb, stringToBin_bytes; auto. }
  assert (Lbits : length bits = (32 + 8 * length P)%nat).
  { rewrite Hbits, length_app, tb_length, concat_tb8_length. reflexivity. }
  set (E := encode data P k).
  assert (LE : length E = length data) by apply encode_loop_length.
  assert (H4E : (length E mod 4 = 0)%nat) by (rewrite LE; exact H4).
  assert (CapE : capacityBits E k = capacityBits data k).
  { unfold capacityBits, pixelCount. rewrite LE. reflexivity. }
  assert (LS : Z.of_nat (length (lsb_stream k 0 E)) = capacityBits data k).
  { rewrite lsb_stream_capacity; auto. }
  assert (Pre : firstn (length bits) (lsb_stream k 0 E) = bits).
  { unfold E, encode, encodeLSB. simpl data_out.
    rewrite encode_stream_prefix; auto; [apply firstn_all|].
    pose proof (lsb_stream_capacity k Hk data H4). lia. }
  assert (Hh : header_of E k = Some n).
  { unfold header_of.
    replace (firstn 32 (lsb_stream k 0 E)) with (firstn 32 bits).
    - rewrite Hbits, firstn_app, tb_length, firstn_all2 by (rewrite tb_length; lia).
      rewrite Nat.sub_diag, app_nil_r. rewrite parseInt2_tb by lia.
      f_equal. apply Z.mod_small. simpl. lia.
    - rewrite <- Pre, firstn_firstn. f_equal. lia. }
  pose proof (total4_capacity E k H4E) as T. rewrite CapE in T.
  pose proof (maxBytes_capacity E k H4E) as M. rewrite CapE in M.
  assert (Hn : 0 < n) by (destruct P; [contradiction|]; unfold n; simpl; lia).
  unfold decode. rewrite (decode_valid E k n); [| lia | exact Hh |].
  2:{ rewrite M. split; [lia|]. apply Z.div_le_lower_bound; lia. }
  rewrite (proj2 (Z.ltb_ge _ _)) by lia. f_equal.
  unfold substring. rewrite firstn_skipn_comm.
  replace (32 + (Z.to_nat (32 + n * 8) - 32))%nat with (length bits) by lia.
  rewrite Pre, Hbits, skipn_app, tb_length, Nat.sub_diag, skipn_all2
    by (rewrite tb_length; lia).
  apply binToString_bytes. exact HP.
Qed.

Lemma decode_encode_roundtrip_witness :
  decode (encode (repeat 0 64) [65] 1) 1 = Ok [65].
Proof.
  apply decode_encode_roundtrip.
  - lia.
  - apply Forall_byte_repeat0.
  - reflexivity.
  - constructor; [unfold is_byte; lia | constructor].
  - discriminate.
  - simpl. lia.
  - vm_compute. congruence.
Defined.

(** C2: a character whose code is 256 is expanded by [stringToBin] to 9
    bits, not 8 (padStart does not truncate); the frame is then 41 bits
    long instead of 32 + 8, and decoding returns the character 128. *)
Theorem stringToBin_wide_char :
  stringToBin [256] = [true; false; false; false; false; false; false; false; false] /\
  length (fullBinary [256]) = 41%nat /\
  decode (encode (repeat 0 64) [256] 1) 1 = Ok [128].
Proof. vm_compute. repeat split. Qed.

(** C3: the capacity shown by App.tsx at scale 1 is
    [max(0, floor(width * height * 3 * k / 8) - 4)] for all widths, heights
    and k; at 20 x 20 with k = 1 it is 146. *)
Theorem capacityBytes_formula :
  (forall w h k, capacityBytes w h k = Z.max 0 ((w * h * 3 * k) / 8 - 4)) /\
  capacityBytes 20 20 1 = 146.
Proof.
  split; [|reflexivity].
  intros w h k. unfold capacityBytes, app_capacity. f_equal. f_equal.
  set (X := w * h * 3 * k).
  replace (w * h * 2 * 2 * 3 * k) with (4 * X) by (unfold X; ring).
  zmod.
Qed.

(** C4: on a 4x4 buffer with k = 1 the capacity returned by [encodeLSB] is
    6 bytes ([floor(pixels * 3 * k / 8)], the header not subtracted), while
    the header-adjusted capacity [max(0, floor(pixels * 3 * k / 8) - 4)]
    is 2. *)
Theorem encode_capacity_no_header :
  capacity (encodeLSB (repeat 0 64) [65] 1) = 6 /\
  Z.max 0 ((pixelCount (repeat 0 64) * 3 * 1) / 8 - 4) = 2.
Proof. vm_compute. split; reflexivity. Qed.

(** C5: for k in [1, 4] and a buffer of bytes, [encodeLSB] leaves every
    alpha byte unchanged, preserves the bits above the low k bits of every
    non-alpha byte, and leaves unchanged every byte that comes after the
    point where the whole header-plus-payload bit string has been written
    (the non-alpha bytes before it already carry [k] bits each). *)
Theorem encode_frame_effect data msg k :
  1 <= k <= 4 -> Forall is_byte data ->
  let out := encode data msg k in
  (forall i : nat, (Z.of_nat i + 1) mod 4 = 0 ->
     nth_error out i = nth_error data i) /\
  (forall (i : nat) d d', (Z.of_nat i + 1) mod 4 <> 0 ->
     nth_error data i = Some d -> nth_error out i = Some d' ->
     Z.land d' (Z.lnot (2 ^ k - 1)) = Z.land d (Z.lnot (2 ^ k - 1))) /\
  (forall i : nat,
     (length (fullBinary msg) <= Z.to_nat k * nonalpha_count 0 i)%nat ->
     nth_error out i = nth_error data i).
Proof.
  intros Hk Hd out. unfold out, encode, encodeLSB. simpl data_out.
  repeat split.
  - intros i Hi. apply encode_loop_alpha.
    unfold is_alpha. apply Z.eqb_eq. rewrite Z.add_0_l. exact Hi.
  - intros i d d' _ H1 H2. eapply encode_loop_upper; eauto.
  - intros i Hi. apply encode_loop_beyond; assumption.
Qed.

Lemma encode_frame_effect_witness :
  nth_error (encode (repeat 7 64) [65] 2) 3 = Some 7 /\
  nth_error (encode (repeat 7 64) [65] 2) 60 = Some 7.
Proof.
  destruct (encode_frame_effect (repeat 7 64) [65] 2 ltac:(lia)) as [A [_ B]].
  - apply Forall_forall. intros x Hx. apply repeat_spec in Hx. subst x.
    unfold is_byte. lia.
  - split.
    + rewrite A by reflexivity. reflexivity.
    + rewrite B by (vm_compute; lia). reflexivity.
Defined.

(** C6: for a buffer of whole pixels, decoding fails with TooSmall exactly
    when [pixelCount * 3 * k < 32], and then without reading any byte or
    parsing a header (the trace is empty). *)
Theorem decode_too_small_iff data k :
  (length data mod 4 = 0)%nat ->
  (decode data k = Err TooSmall <-> capacityBits data k < 32) /\
  (capacityBits data k < 32 -> snd (decodeLSB data k) = []).
Proof.
  intro H4. pose proof (total4_capacity data k H4) as T.
  split; [split|].
  - intro H. apply decode_not_too_small in H. lia.
  - intro H. unfold decode. rewrite decode_too_small by lia. reflexivity.
  - intro H. rewrite decode_too_small by lia. reflexivity.
Qed.

Lemma decode_too_small_iff_witness :
  capacityBits (repeat 0 32) 1 = 24 /\
  decode (repeat 0 32) 1 = Err TooSmall /\
  snd (decodeLSB (repeat 0 32) 1) = [].
Proof.
  destruct (decode_too_small_iff (repeat 0 32) 1 ltac:(reflexivity)) as [[_ A] B].
  assert (C : capacityBits (repeat 0 32) 1 = 24) by reflexivity.
  split; [exact C|]. split; [apply A | apply B]; lia.
Defined.

(** C7: for a buffer of whole pixels with at least 32 extractable bits,
    decoding fails with InvalidHeader exactly when the header parsed from
    the first 32 extracted bits is NaN, at most 0, or above
    [maxBytes = floor((totalBits - 32) / 8)]; in that case the trace is
    phase-1 reads followed by the header parse, with no phase-2 read. *)
Theorem decode_invalid_header_iff data k :
  (length data mod 4 = 0)%nat -> 32 <= capacityBits data k ->
  (decode data k = Err InvalidHeader <->
     header_invalid (header_of data k) ((capacityBits data k - 32) / 8)) /\
  (header_invalid (header_of data k) ((capacityBits data k - 32) / 8) ->
     exists ev, snd (decodeLSB data k) = ev ++ [ParseHeader] /\
                Forall (fun e => exists i, e = Extract 1 i) ev).
Proof.
  intros H4 Hc. pose proof (total4_capacity data k H4) as T.
  pose proof (maxBytes_capacity data k H4) as M. rewrite <- M.
  split; [split|].
  - intro Hdec. destruct (header_of data k) as [m|] eqn:Hh; simpl; [|trivial].
    destruct (Z_le_gt_dec m 0) as [Le|Gt]; [left; exact Le|].
    destruct (Z_lt_ge_dec ((Z.of_nat (length data) * 3 * k - 128) / 32) m)
      as [Lt|Ge]; [right; exact Lt|].
    exfalso. unfold decode in Hdec.
    rewrite (decode_valid data k m) in Hdec by (auto; lia).
    destruct (_ <? _) in Hdec; discriminate.
  - intro Hinv. destruct (decode_invalid data k ltac:(lia) Hinv) as [ev [E _]].
    unfold decode. rewrite E. reflexivity.
  - intro Hinv. destruct (decode_invalid data k ltac:(lia) Hinv) as [ev [E F]].
    exists ev. rewrite E. split; auto.
Qed.

Lemma decode_invalid_header_iff_witness :
  decode (encode (repeat 0 64) (repeat 65 10) 1) 1 = Err InvalidHeader.
Proof.
  destruct (decode_invalid_header_iff (encode (repeat 0 64) (repeat 65 10) 1) 1)
    as [[_ A] _].
  - reflexivity.
  - vm_compute. congruence.
  - apply A. vm_compute. right. reflexivity.
Defined.

(** C8: for a buffer of whole pixels with at least 32 extractable bits and
    a header [m] that passes validation, decoding fails with Truncated
    exactly when fewer than [32 + m * 8] bits can be extracted from the
    non-alpha bytes; otherwise it returns the [m] characters read from bits
    [32, 32 + m * 8) of that bit stream. *)
Theorem decode_truncated_or_payload data k m :
  (length data mod 4 = 0)%nat -> 32 <= capacityBits data k ->
  header_of data k = Some m -> 0 < m <= (capacityBits data k - 32) / 8 ->
  (decode data k = Err Truncated <->
     Z.of_nat (length (lsb_stream k 0 data)) < 32 + m * 8) /\
  (32 + m * 8 <= Z.of_nat (length (lsb_stream k 0 data)) ->
     decode data k =
       Ok (binToString (substring (lsb_stream k 0 data) 32 (Z.to_nat (32 + m * 8)))) /\
     length (binToString (substring (lsb_stream k 0 data) 32 (Z.to_nat (32 + m * 8))))
       = Z.to_nat m).
Proof.
  intros H4 Hc Hh Hm. pose proof (total4_capacity data k H4) as T.
  pose proof (maxBytes_capacity data k H4) as M.
  assert (D := decode_valid data k m ltac:(lia) Hh ltac:(rewrite M; lia)).
  unfold decode. rewrite D. split; [split|].
  - destruct (_ <? _) eqn:L; [intros _; apply Z.ltb_lt; exact L|discriminate].
  - intro L. rewrite (proj2 (Z.ltb_lt _ _) L). reflexivity.
  - intro L. rewrite (proj2 (Z.ltb_ge _ _) L). split; [reflexivity|].
    apply binToString_length. unfold substring.
    rewrite length_firstn, length_skipn. lia.
Qed.

Lemma decode_truncated_or_payload_witness :
  decode (encode (repeat 0 64) [65] 1) 1 =
  Ok (binToString (substring (lsb_stream 1 0 (encode (repeat 0 64) [65] 1)) 32 40)).
Proof.
  destruct (decode_truncated_or_payload (encode (repeat 0 64) [65] 1) 1 1)
    as [_ B].
  - reflexivity.
  - vm_compute. congruence.
  - vm_compute. reflexivity.
  - vm_compute. split; congruence.
  - apply B. vm_compute. congruence.
Defined.

(** C9: when the header-plus-payload frame does not fit in the buffer
    (k in [1, 4], a buffer of bytes of whole pixels,
    [capacityBits <= len(fullBinary)]), [encodeLSB] returns normally
    (it is a total function) with a buffer of the same length, whose
    whole extractable bit stream is exactly the first [capacityBits] bits
    of the frame: it writes as much of the frame as fits and drops the
    rest.  On the all-zero 4x4 buffer with k = 1, every 10-character
    payload leads to a decode failure with InvalidHeader or Truncated, and
    never to a returned message of 10 characters. *)
Theorem encode_overflow_truncates data msg k :
  1 <= k <= 4 -> Forall is_byte data -> (length data mod 4 = 0)%nat ->
  capacityBits data k <= Z.of_nat (length (fullBinary msg)) ->
  (length (encode data msg k) = length data /\
   lsb_stream k 0 (encode data msg k) =
     firstn (Z.to_nat (capacityBits data k)) (fullBinary msg)) /\
  (forall msg', length msg' = 10%nat ->
     (decode (encode (repeat 0 64) msg' 1) 1 = Err InvalidHeader \/
      decode (encode (repeat 0 64) msg' 1) 1 = Err Truncated) /\
     (forall s, length s = 10%nat -> decode (encode (repeat 0 64) msg' 1) 1 <> Ok s)).
Proof.
  intros Hk Hd H4 Hover.
  assert (Case10 : forall msg', length msg' = 10%nat ->
            decode (encode (repeat 0 64) msg' 1) 1 = Err InvalidHeader).
  { intros msg' Hl.
    set (E := encode (repeat 0 64) msg' 1).
    assert (Hhd : lengthHeader msg' = tb 32 10).
    { rewrite lengthHeader_tb; rewrite Hl; [reflexivity | simpl; lia]. }
    assert (Hpre : firstn 32 (lsb_stream 1 0 E) = firstn 32 (fullBinary msg')).
    { change E with (encode_loop 1 (Z.shiftl 255 1) 0 (repeat 0 64) (fullBinary msg')).
      apply encode_stream_prefix; [lia | apply Forall_byte_repeat0 | |].
      - unfold fullBinary. rewrite length_app, Hhd, tb_length. lia.
      - vm_compute. lia. }
    assert (Hh : header_of E 1 = Some 10).
    { unfold header_of. rewrite Hpre. unfold fullBinary.
      rewrite Hhd, firstn_app, tb_length, Nat.sub_diag, app_nil_r.
      rewrite firstn_all2 by (rewrite tb_length; lia). reflexivity. }
    assert (LE : length E = 64%nat) by apply encode_loop_length.
    destruct (decode_invalid E 1) as [ev [D _]].
    + rewrite LE. simpl. lia.
    + rewrite Hh, LE. simpl. right. reflexivity.
    + unfold decode. rewrite D. reflexivity. }
  split; [split|].
  - apply encode_loop_length.
  - set (E := encode data msg k).
    assert (LE : length E = length data) by apply encode_loop_length.
    assert (H4E : (length E mod 4 = 0)%nat) by (rewrite LE; exact H4).
    assert (CapE : capacityBits E k = capacityBits data k).
    { unfold capacityBits, pixelCount. rewrite LE. reflexivity. }
    pose proof (lsb_stream_capacity k Hk E H4E) as LSE.
    pose proof (lsb_stream_capacity k Hk data H4) as LSD.
    replace (Z.to_nat (capacityBits data k)) with (length (lsb_stream k 0 E)) by lia.
    rewrite <- (firstn_all (lsb_stream k 0 E)) at 1.
    set (m := length (lsb_stream k 0 E)).
    assert (Hm1 : (m <= length (fullBinary msg))%nat) by (unfold m; lia).
    assert (Hm2 : (m <= length (lsb_stream k 0 data))%nat) by (unfold m; lia).
    clearbody m.
    unfold E, encode, encodeLSB. cbn [data_out].
    apply encode_stream_prefix; assumption.
  - intros msg' Hl. rewrite (Case10 msg' Hl). split; [left; reflexivity|].
    intros s _. discriminate.
Qed.

Lemma encode_overflow_truncates_witness :
  lsb_stream 1 0 (encode (repeat 0 64) (repeat 65 10) 1) =
    firstn 48 (fullBinary (repeat 65 10)) /\
  (decode (encode (repeat 0 64) (repeat 65 10) 1) 1 = Err InvalidHeader \/
   decode (encode (repeat 0 64) (repeat 65 10) 1) 1 = Err Truncated).
Proof.
  destruct (encode_overflow_truncates (repeat 0 64) (repeat 65 10) 1) as [[_ A] B].
  - lia.
  - apply Forall_byte_repeat0.
  - reflexivity.
  - vm_compute. congruence.
  - split; [exact A | apply (B (repeat 65 10) eq_refl)].
Defined.

(** C10: for a buffer of bytes of whole pixels with at least 32
    extractable bits and k in [1, 4], encoding the empty payload writes an
    all-zero 32-bit header, and decoding the result fails with
    InvalidHeader. *)
Theorem encode_empty_payload_rejected data k :
  1 <= k <= 4 -> Forall is_byte data -> (length data mod 4 = 0)%nat ->
  32 <= capacityBits data k ->
  firstn 32 (lsb_stream k 0 (encode data [] k)) = repeat false 32 /\
  decode (encode data [] k) k = Err InvalidHeader.
Proof.
  intros Hk Hd H4 Hc.
  set (E := encode data [] k).
  assert (Hpre : firstn 32 (lsb_stream k 0 E) = repeat false 32).
  { unfold E, encode, encodeLSB. simpl data_out.
    rewrite encode_stream_prefix; auto.
    pose proof (lsb_stream_capacity k Hk data H4). lia. }
  split; [exact Hpre|].
  assert (LE : length E = length data) by apply encode_loop_length.
  assert (H4E : (length E mod 4 = 0)%nat) by (rewrite LE; exact H4).
  pose proof (total4_capacity E k H4E) as T.
  assert (CapE : capacityBits E k = capacityBits data k).
  { unfold capacityBits, pixelCount. rewrite LE. reflexivity. }
  destruct (decode_invalid E k) as [ev [D _]].
  - lia.
  - unfold header_of. rewrite Hpre. simpl. left. reflexivity.
  - unfold decode. rewrite D. reflexivity.
Qed.

Lemma encode_empty_payload_rejected_witness :
  decode (encode (repeat 0 64) [] 2) 2 = Err InvalidHeader.
Proof.
  apply (encode_empty_payload_rejected (repeat 0 64) 2).
  - lia.
  - apply Forall_byte_repeat0.
  - reflexivity.
  - vm_compute. congruence.
Defined.

(** ** Further properties of the codec and of App.tsx *)

Section Extra.

Lemma valueToHide_bound k bits :
  1 <= k -> 0 <= valueToHide k (firstn (Z.to_nat k) bits) < 2 ^ k.
Proof.
  intro Hk. set (l := padEnd (Z.to_nat k) (firstn (Z.to_nat k) bits)).
  assert (Hl : length l = Z.to_nat k).
  { apply padEnd_length. rewrite length_firstn. lia. }
  assert (Hv : valueToHide k (firstn (Z.to_nat k) bits) = bin_value l).
  { unfold valueToHide. fold l. destruct l eqn:E; [simpl in Hl; lia|]. reflexivity. }
  rewrite Hv. pose proof (bin_value_bound l) as B. rewrite Hl, Z2Nat.id in B by lia.
  exact B.
Qed.

Lemma encode_loop_bytes k mk data : forall i bits,
  Forall is_byte data -> Forall is_byte (encode_loop k mk i data bits).
Proof.
  induction data as [|d data IH]; intros i bits H; [constructor|].
  inversion H; subst. destruct bits as [|b bs]; [exact H|].
  cbn [encode_loop]. destruct (is_alpha i); constructor; auto using u8clamp_byte.
Qed.

Lemma encode_loop_idem k data : forall i bits,
  1 <= k <= 4 -> Forall is_byte data ->
  encode_loop k (Z.shiftl 255 k) i (encode_loop k (Z.shiftl 255 k) i data bits) bits
  = encode_loop k (Z.shiftl 255 k) i data bits.
Proof.
  induction data as [|d data IH]; intros i bits Hk H; [reflexivity|].
  inversion H as [|? ? Hd Hb]; subst. destruct bits as [|b bs]; [reflexivity|].
  cbn [encode_loop]. destruct (is_alpha i) eqn:A; cbn [encode_loop]; rewrite A.
  - f_equal. apply IH; auto.
  - pose proof (valueToHide_bound k (b :: bs) ltac:(lia)) as Hv.
    destruct (byte_write_facts k d _ Hk Hd Hv) as [C _].
    rewrite C. rewrite (byte_rewrite_spec k d _ Hk Hd Hv), C.
    f_equal. apply IH; auto.
Qed.

End Extra.

(** Round trip, shared by the properties below. *)
Lemma roundtrip_core data P k :
  1 <= k <= 4 -> Forall is_byte data -> (length data mod 4 = 0)%nat ->
  Forall is_byte P -> P <> [] -> Z.of_nat (length P) < 2 ^ 32 ->
  Z.of_nat (length P) * 8 + 32 <= capacityBits data k ->
  decode (encode data P k) k = Ok P.
Proof.
  intros Hk Hd H4 HP Hne H32 Hcap.
  set (n := Z.of_nat (length P)) in *.
  set (bits := fullBinary P).
  assert (Hbits : bits = tb 32 n ++ concat (map (tb 8) P)).
  { unfold bits, fullBinary. rewrite lengthHeader_tb, stringToBin_bytes; auto. }
  assert (Lbits : length bits = (32 + 8 * length P)%nat).
  { rewrite Hbits, length_app, tb_length, concat_tb8_length. reflexivity. }
  set (E := encode data P k).
  assert (LE : length E = length data) by apply encode_loop_length.
  assert (H4E : (length E mod 4 = 0)%nat) by (rewrite LE; exact H4).
  assert (CapE : capacityBits E k = capacityBits data k).
  { unfold capacityBits, pixelCount. rewrite LE. reflexivity. }
  assert (LS : Z.of_nat (length (lsb_stream k 0 E)) = capacityBits data k).
  { rewrite lsb_stream_capacity; auto. }
  assert (Pre : firstn (length bits) (lsb_stream k 0 E) = bits).
  { unfold E, encode, encodeLSB. simpl data_out.
    rewrite encode_stream_prefix; auto; [apply firstn_all|].
    pose proof (lsb_stream_capacity k Hk data H4). lia. }
  assert (Hh : header_of E k = Some n).
  { unfold header_of.
    replace (firstn 32 (lsb_stream k 0 E)) with (firstn 32 bits).
    - rewrite Hbits, firstn_app, tb_length, firstn_all2 by (rewrite tb_length; lia).
      rewrite Nat.sub_diag, app_nil_r. rewrite parseInt2_tb by lia.
      f_equal. apply Z.mod_small. simpl. lia.
    - rewrite <- Pre, firstn_firstn. f_equal. lia. }
  pose proof (total4_capacity E k H4E) as T. rewrite CapE in T.
  pose proof (maxBytes_capacity E k H4E) as M. rewrite CapE in M.
  assert (Hn : 0 < n) by (destruct P; [contradiction|]; unfold n; simpl; lia).
  unfold decode. rewrite (decode_valid E k n); [| lia | exact Hh |].
  2:{ rewrite M. split; [lia|]. apply Z.div_le_lower_bound; lia. }
  rewrite (proj2 (Z.ltb_ge _ _)) by lia. f_equal.
  unfold substring. rewrite firstn_skipn_comm.
  replace (32 + (Z.to_nat (32 + n * 8) - 32))%nat with (length bits) by lia.
  rewrite Pre, Hbits, skipn_app, tb_length, Nat.sub_diag, skipn_all2
    by (rewrite tb_length; lia).
  apply binToString_bytes. exact HP.
Qed.

Section Extra2.


Lemma binToString_all_bytes l : Forall is_byte (binToString l).
Proof.
  unfold binToString, chunks8. generalize (length l) as fuel.
  intro fuel. revert l. induction fuel as [|fuel IH]; intro l; [constructor|].
  cbn [chunks8_fuel]. destruct l as [|b l']; [constructor|].
  cbn [map]. constructor; [|apply IH].
  set (c := firstn 8 (b :: l')).
  assert (Hc : (1 <= length c <= 8)%nat)
    by (unfold c; rewrite length_firstn; cbn [length]; lia).
  assert (P : parseInt2 c = Some (bin_value c))
    by (destruct c; [simpl in Hc; lia | reflexivity]).
  rewrite P. unfold fromCharCode.
  pose proof (bin_value_bound c) as B.
  assert (2 ^ Z.of_nat (length c) <= 2 ^ 8) by (apply Z.pow_le_mono_r; lia).
  unfold is_byte. rewrite Z.mod_small; lia.
Qed.

Lemma stringToBin_binToString_fuel n : forall fuel l,
  length l = (8 * n)%nat -> (n <= fuel)%nat ->
  stringToBin (map (fun byte => fromCharCode (parseInt2 byte)) (chunks8_fuel fuel l)) = l.
Proof.
  induction n as [|n IH]; intros fuel l Hl Hf.
  - destruct l; [|simpl in Hl; lia]. destruct fuel; reflexivity.
  - destruct fuel as [|fuel]; [lia|]. destruct l as [|b l']; [simpl in Hl; lia|].
    cbn [chunks8_fuel map]. unfold stringToBin. cbn [map concat]. fold (stringToBin
      (map (fun byte => fromCharCode (parseInt2 byte)) (chunks8_fuel fuel (skipn 8 (b :: l'))))).
    rewrite IH by (try rewrite length_skipn; cbn [length] in *; lia).
    set (c := firstn 8 (b :: l')).
    assert (Hc : length c = 8%nat)
      by (unfold c; rewrite length_firstn; cbn [length] in Hl |- *; lia).
    assert (P : parseInt2 c = Some (bin_value c))
      by (destruct c; [simpl in Hc; lia | reflexivity]).
    rewrite P. unfold fromCharCode.
    pose proof (bin_value_bound c) as B. rewrite Hc in B. simpl in B.
    rewrite Z.mod_small by lia. rewrite char_bits by (unfold is_byte; lia).
    rewrite <- Hc at 1. rewrite tb_bin_value. apply firstn_skipn.
Qed.

Lemma stream_low_bits k d1 : forall d2 i,
  1 <= k <= 4 -> length d1 = length d2 ->
  (forall (j : nat) x y, nth_error d1 j = Some x -> nth_error d2 j = Some y ->
     is_alpha (i + Z.of_nat j) = false -> x mod 2 ^ k = y mod 2 ^ k) ->
  lsb_stream k i d1 = lsb_stream k i d2.
Proof.
  induction d1 as [|x d1 IH]; intros d2 i Hk Hl H; destruct d2 as [|y d2];
    try discriminate; [reflexivity|].
  cbn [lsb_stream]. f_equal.
  - destruct (is_alpha i) eqn:A; [reflexivity|].
    rewrite !chunk_bits_tb by exact Hk. f_equal.
    apply (H 0%nat); auto. rewrite Z.add_0_r. exact A.
  - apply IH; auto. intros j x' y' H1 H2 A. apply (H (S j)); auto.
    rewrite <- A. f_equal. lia.
Qed.

Lemma decode_determined d1 d2 k :
  length d1 = length d2 -> lsb_stream k 0 d1 = lsb_stream k 0 d2 ->
  decode d1 k = decode d2 k.
Proof.
  intros Hl Hs. unfold decode.
  destruct (Z_lt_ge_dec (Z.of_nat (length d1) * 3 * k) 128) as [Lt|Ge].
  { rewrite !decode_too_small; rewrite <- ?Hl; auto. }
  assert (Hh : header_of d1 k = header_of d2 k) by (unfold header_of; rewrite Hs; reflexivity).
  set (mb := (Z.of_nat (length d1) * 3 * k - 128) / 32).
  destruct (header_of d2 k) as [m|] eqn:H2.
  - destruct (Z_le_gt_dec m 0) as [A|A];
      [|destruct (Z_lt_ge_dec mb m) as [B|B]].
    + destruct (decode_invalid d1 k) as [e1 [E1 _]]; [lia| rewrite Hh; simpl; lia|].
      destruct (decode_invalid d2 k) as [e2 [E2 _]]; [lia| rewrite H2; simpl; lia|].
      rewrite E1, E2. reflexivity.
    + destruct (decode_invalid d1 k) as [e1 [E1 _]]; [lia| rewrite Hh; simpl; right; exact B|].
      destruct (decode_invalid d2 k) as [e2 [E2 _]];
        [lia| rewrite H2; simpl; right; unfold mb in B; rewrite <- Hl; exact B|].
      rewrite E1, E2. reflexivity.
    + assert (V1 := decode_valid d1 k m ltac:(lia) ltac:(exact Hh)
                      ltac:(unfold mb in *; lia)).
      assert (V2 := decode_valid d2 k m ltac:(rewrite <- Hl; lia) ltac:(exact H2)
                      ltac:(rewrite <- Hl; unfold mb in *; lia)).
      rewrite V1, V2, Hs. reflexivity.
  - destruct (decode_invalid d1 k) as [e1 [E1 _]]; [lia| rewrite Hh; simpl; exact I|].
    destruct (decode_invalid d2 k) as [e2 [E2 _]]; [lia| rewrite H2; simpl; exact I|].
    rewrite E1, E2. reflexivity.
Qed.

End Extra2.

(** Invalid-header branches of [decodeLSB] for a hypothesis [Hd] saying
    the decode succeeded with some other result. *)
Ltac invalid_branch data k Hh Hd :=
  let ev := fresh "ev" in let E := fresh "E" in
  destruct (decode_invalid data k) as [ev [E _]];
  [ lia | rewrite Hh; simpl; first [exact I | lia]
  | unfold decode in Hd; rewrite E in Hd; discriminate ].

(** X1: [binToString] inverts [stringToBin] on every string of byte-valued
    characters. *)
Theorem binToString_stringToBin P :
  Forall is_byte P -> binToString (stringToBin P) = P.
Proof.
  intro H. rewrite stringToBin_bytes by exact H. apply binToString_bytes. exact H.
Qed.

Lemma binToString_stringToBin_witness :
  binToString (stringToBin [72; 105; 0; 255]) = [72; 105; 0; 255].
Proof.
  apply binToString_stringToBin.
  apply Forall_forall. intros x Hx. simpl in Hx. unfold is_byte. lia.
Defined.

(** X2: [stringToBin] inverts [binToString] on every bit string whose
    length is a multiple of 8: each 8-bit chunk is parsed to a character
    below 256, which [stringToBin] expands back to the same 8 bits. *)
Theorem stringToBin_binToString l n :
  length l = (8 * n)%nat -> stringToBin (binToString l) = l.
Proof.
  intro H. unfold binToString, chunks8.
  apply (stringToBin_binToString_fuel n); lia.
Qed.

Lemma stringToBin_binToString_witness :
  stringToBin (binToString [false; true; false; false; false; false; false; true;
                            true; true; true; true; true; true; true; true])
  = [false; true; false; false; false; false; false; true;
     true; true; true; true; true; true; true; true].
Proof. apply (stringToBin_binToString _ 2). reflexivity. Defined.

(** X3: whenever [decodeLSB] returns a message for a buffer of whole
    pixels, the message is non-empty, has at most
    [(capacityBits - 32) / 8] characters, and every character is below
    256. *)
Theorem decode_ok_shape data k s :
  (length data mod 4 = 0)%nat -> decode data k = Ok s ->
  s <> [] /\ Z.of_nat (length s) <= (capacityBits data k - 32) / 8 /\
  Forall is_byte s.
Proof.
  intros H4 Hd. pose proof (total4_capacity data k H4) as T.
  pose proof (maxBytes_capacity data k H4) as M.
  destruct (Z_lt_ge_dec (Z.of_nat (length data) * 3 * k) 128) as [Lt|Ge].
  { unfold decode in Hd. rewrite decode_too_small in Hd by lia. discriminate. }
  destruct (header_of data k) as [m|] eqn:Hh; [|invalid_branch data k Hh Hd].
  destruct (Z_le_gt_dec m 0) as [A|A]; [invalid_branch data k Hh Hd|].
  destruct (Z_lt_ge_dec ((Z.of_nat (length data) * 3 * k - 128) / 32) m) as [B|B];
    [invalid_branch data k Hh Hd|].
  unfold decode in Hd. rewrite (decode_valid data k m) in Hd by (auto; lia).
  destruct (_ <? _) eqn:L in Hd; [discriminate|]. apply Z.ltb_ge in L.
  assert (Hs : s = binToString (substring (lsb_stream k 0 data) 32 (Z.to_nat (32 + m * 8))))
    by congruence.
  subst s. clear Hd.
  set (S := substring (lsb_stream k 0 data) 32 (Z.to_nat (32 + m * 8))) in *.
  assert (Ls : length (binToString S) = Z.to_nat m).
  { apply binToString_length. unfold S, substring.
    rewrite length_firstn, length_skipn. lia. }
  split; [|split].
  - intro E. rewrite E in Ls. simpl in Ls. lia.
  - rewrite Ls. lia.
  - apply binToString_all_bytes.
Qed.

Lemma decode_ok_shape_witness :
  [65] <> [] /\
  Z.of_nat (length [65]) <= (capacityBits (encode (repeat 0 64) [65] 1) 1 - 32) / 8 /\
  Forall is_byte [65].
Proof.
  apply (decode_ok_shape (encode (repeat 0 64) [65] 1) 1 [65]).
  - reflexivity.
  - vm_compute. reflexivity.
Defined.

(** X4: for a buffer of whole pixels and k in [1, 4], [decodeLSB] never
    fails with "Image data ended prematurely": a header accepted by the
    sanity check always leaves enough extractable bits for the message. *)
Theorem decode_never_truncated data k :
  1 <= k <= 4 -> (length data mod 4 = 0)%nat -> decode data k <> Err Truncated.
Proof.
  intros Hk H4 Hd. pose proof (total4_capacity data k H4) as T.
  pose proof (maxBytes_capacity data k H4) as M.
  pose proof (lsb_stream_capacity k Hk data H4) as LS.
  destruct (Z_lt_ge_dec (Z.of_nat (length data) * 3 * k) 128) as [Lt|Ge].
  { unfold decode in Hd. rewrite decode_too_small in Hd by lia. discriminate. }
  destruct (header_of data k) as [m|] eqn:Hh; [|invalid_branch data k Hh Hd].
  destruct (Z_le_gt_dec m 0) as [A|A]; [invalid_branch data k Hh Hd|].
  destruct (Z_lt_ge_dec ((Z.of_nat (length data) * 3 * k - 128) / 32) m) as [B|B];
    [invalid_branch data k Hh Hd|].
  unfold decode in Hd. rewrite (decode_valid data k m) in Hd by (auto; lia).
  rewrite (proj2 (Z.ltb_ge _ _)) in Hd by (rewrite LS; rewrite M in B; zmod).
  discriminate.
Qed.

Lemma decode_never_truncated_witness :
  decode (repeat 1 64) 1 <> Err Truncated.
Proof. apply decode_never_truncated; [lia | reflexivity]. Defined.

(** X5: encoding the same message twice with the same k gives the same
    buffer as encoding it once. *)
Theorem encode_idempotent data P k :
  1 <= k <= 4 -> Forall is_byte data ->
  encode (encode data P k) P k = encode data P k.
Proof.
  intros Hk Hd. unfold encode, encodeLSB. cbn [data_out].
  apply encode_loop_idem; assumption.
Qed.

Lemma encode_idempotent_witness :
  encode (encode (repeat 7 64) [65; 66] 2) [65; 66] 2 = encode (repeat 7 64) [65; 66] 2.
Proof.
  apply encode_idempotent; [lia|].
  apply Forall_forall. intros x Hx. apply repeat_spec in Hx. subst x.
  unfold is_byte. lia.
Defined.

(** X6: encoding a second message over an already encoded buffer hides
    the second message: decoding returns it, whatever the first message
    was (the second one satisfying the round-trip conditions). *)
Theorem encode_overwrite data P1 P2 k :
  1 <= k <= 4 -> Forall is_byte data -> (length data mod 4 = 0)%nat ->
  Forall is_byte P2 -> P2 <> [] -> Z.of_nat (length P2) < 2 ^ 32 ->
  Z.of_nat (length P2) * 8 + 32 <= capacityBits data k ->
  decode (encode (encode data P1 k) P2 k) k = Ok P2.
Proof.
  intros Hk Hd H4 HP Hne H32 Hcap.
  assert (LE : length (encode data P1 k) = length data) by apply encode_loop_length.
  apply roundtrip_core; auto.
  - apply encode_loop_bytes. exact Hd.
  - rewrite LE. exact H4.
  - unfold capacityBits, pixelCount. rewrite LE. exact Hcap.
Qed.

Lemma encode_overwrite_witness :
  decode (encode (encode (repeat 0 64) [65; 66] 1) [67] 1) 1 = Ok [67].
Proof.
  apply encode_overwrite.
  - lia.
  - apply Forall_byte_repeat0.
  - reflexivity.
  - constructor; [unfold is_byte; lia | constructor].
  - discriminate.
  - simpl. lia.
  - vm_compute. congruence.
Defined.

(** X7: for any message whose length fits the 32-bit header (even with
    characters of code 256 or more), a buffer of bytes of whole pixels
    with at least 32 extractable bits, and k in [1, 4], the header the
    decoder reads back from the encoded buffer is the message length. *)
Theorem encode_header_any_message data msg k :
  1 <= k <= 4 -> Forall is_byte data -> (length data mod 4 = 0)%nat ->
  32 <= capacityBits data k -> Z.of_nat (length msg) < 2 ^ 32 ->
  header_of (encode data msg k) k = Some (Z.of_nat (length msg)).
Proof.
  intros Hk Hd H4 Hc H32. unfold header_of, encode, encodeLSB. cbn [data_out].
  assert (LH : lengthHeader msg = tb 32 (Z.of_nat (length msg)))
    by (apply lengthHeader_tb; exact H32).
  rewrite encode_stream_prefix; auto.
  - unfold fullBinary. rewrite LH, firstn_app, tb_length, Nat.sub_diag, app_nil_r.
    rewrite firstn_all2 by (rewrite tb_length; lia).
    rewrite parseInt2_tb by lia. f_equal. apply Z.mod_small. simpl. lia.
  - unfold fullBinary. rewrite length_app, LH, tb_length. lia.
  - pose proof (lsb_stream_capacity k Hk data H4). lia.
Qed.

Lemma encode_header_any_message_witness :
  header_of (encode (repeat 0 64) [256; 1000] 1) 1 = Some 2.
Proof.
  apply (encode_header_any_message (repeat 0 64) [256; 1000] 1).
  - lia.
  - apply Forall_byte_repeat0.
  - reflexivity.
  - vm_compute. congruence.
  - simpl. lia.
Defined.

(** X8: the result of [decodeLSB] depends only on the length of the
    buffer and on the low k bits of its non-alpha bytes: two buffers of the
    same length that agree there decode alike (alpha bytes and the higher
    bits are never looked at). *)
Theorem decode_low_bits_only d1 d2 k :
  1 <= k <= 4 -> length d1 = length d2 ->
  (forall (j : nat) x y, nth_error d1 j = Some x -> nth_error d2 j = Some y ->
     (Z.of_nat j + 1) mod 4 <> 0 -> x mod 2 ^ k = y mod 2 ^ k) ->
  decode d1 k = decode d2 k.
Proof.
  intros Hk Hl H. apply decode_determined; auto.
  apply stream_low_bits; auto.
  intros j x y H1 H2 A. apply (H j x y H1 H2).
  unfold is_alpha in A. rewrite Z.add_0_l in A. apply Z.eqb_neq in A. exact A.
Qed.

Lemma decode_low_bits_only_witness :
  decode (repeat 0 64) 1 = decode (repeat 2 64) 1.
Proof.
  apply (decode_low_bits_only (repeat 0 64) (repeat 2 64) 1); [lia | reflexivity |].
  intros j x y H1 H2 _.
  apply nth_error_In, repeat_spec in H1. apply nth_error_In, repeat_spec in H2.
  subst. reflexivity.
Defined.


(** X10: the encode path of App.tsx at an integer scale [s]
    ([scale2 = 2 * s]): if the scaled canvas holds
    [4 * (w*s) * (h*s)] bytes, the message is non-empty (the button is
    disabled otherwise), of byte-valued characters and shorter than
    [2^32], and [handleProcess] accepts it, then decoding the encoded
    canvas with the same bit depth returns the message. *)
Theorem app_encode_roundtrip w h s k scaled msg out :
  1 <= k <= 4 -> Forall is_byte scaled ->
  Z.of_nat (length scaled) = 4 * scaled_dim w (2 * s) * scaled_dim h (2 * s) ->
  Forall is_byte msg -> msg <> [] -> Z.of_nat (length msg) < 2 ^ 32 ->
  app_encode w h (2 * s) k scaled msg = Some out ->
  decode out k = Ok msg.
Proof.
  intros Hk Hb HL HP Hne H32 Happ.
  unfold app_encode in Happ.
  destruct (_ >? _) eqn:C in Happ; [discriminate|].
  assert (Hout : out = encode_loop k (Z.shiftl 255 k) 0 scaled (fullBinary msg))
    by congruence.
  subst out. clear Happ.
  rewrite Z.gtb_ltb, Z.ltb_ge in C.
  assert (Dw : scaled_dim w (2 * s) = w * s)
    by (unfold scaled_dim; replace (w * (2 * s)) with (w * s * 2) by ring;
        apply Z.div_mul; lia).
  assert (Dh : scaled_dim h (2 * s) = h * s)
    by (unfold scaled_dim; replace (h * (2 * s)) with (h * s * 2) by ring;
        apply Z.div_mul; lia).
  rewrite Dw, Dh in HL.
  set (A := w * s * (h * s)) in *.
  assert (HL' : Z.of_nat (length scaled) = 4 * A) by (rewrite HL; unfold A; ring).
  assert (H4 : (length scaled mod 4 = 0)%nat).
  { assert (Z.of_nat (length scaled mod 4) = 0); [|lia].
    rewrite Nat2Z.inj_mod, HL'. simpl (Z.of_nat 4). zmod. }
  assert (Cap : capacityBits scaled k = A * 3 * k).
  { unfold capacityBits, pixelCount. rewrite HL'.
    rewrite Z.mul_comm with (n := 4), Z.div_mul by lia. reflexivity. }
  assert (AC : app_capacity w h (2 * s) k = Z.max 0 ((4 * (A * 3 * k)) / 32 - 4)).
  { unfold app_capacity. f_equal. f_equal. f_equal. unfold A. ring. }
  rewrite AC in C.
  assert (Hn : 1 <= Z.of_nat (length msg)) by (destruct msg; [contradiction|]; simpl; lia).
  change (encode_loop k (Z.shiftl 255 k) 0 scaled (fullBinary msg))
    with (encode scaled msg k).
  apply roundtrip_core; auto.
  rewrite Cap. set (X := A * 3 * k) in *. zmod.
Qed.

Lemma app_encode_roundtrip_witness :
  decode (encode_loop 1 (Z.shiftl 255 1) 0 (repeat 0 64) (fullBinary [65])) 1 = Ok [65].
Proof.
  apply (app_encode_roundtrip 4 4 1 1 (repeat 0 64) [65]).
  - lia.
  - apply Forall_byte_repeat0.
  - reflexivity.
  - constructor; [unfold is_byte; lia | constructor].
  - discriminate.
  - simpl. lia.
  - reflexivity.
Defined.

(** X11: at an integer scale the capacity check of [handleProcess] is
    exact: a non-empty message is accepted if and only if its 32-bit
    header and 8 bits per character fit in the extractable bits of the
    scaled canvas ([len * 8 + 32 <= capacityBits]). *)
Theorem app_encode_accept_iff w h s k scaled msg :
  Z.of_nat (length scaled) = 4 * scaled_dim w (2 * s) * scaled_dim h (2 * s) ->
  msg <> [] ->
  (app_encode w h (2 * s) k scaled msg <> None <->
   Z.of_nat (length msg) * 8 + 32 <= capacityBits scaled k).
Proof.
  intros HL Hne.
  assert (Dw : scaled_dim w (2 * s) = w * s)
    by (unfold scaled_dim; replace (w * (2 * s)) with (w * s * 2) by ring;
        apply Z.div_mul; lia).
  assert (Dh : scaled_dim h (2 * s) = h * s)
    by (unfold scaled_dim; replace (h * (2 * s)) with (h * s * 2) by ring;
        apply Z.div_mul; lia).
  rewrite Dw, Dh in HL.
  set (A := w * s * (h * s)) in *.
  assert (HL' : Z.of_nat (length scaled) = 4 * A) by (rewrite HL; unfold A; ring).
  assert (Cap : capacityBits scaled k = A * 3 * k).
  { unfold capacityBits, pixelCount. rewrite HL'.
    rewrite Z.mul_comm with (n := 4), Z.div_mul by lia. reflexivity. }
  assert (AC : app_capacity w h (2 * s) k = Z.max 0 ((4 * (A * 3 * k)) / 32 - 4)).
  { unfold app_capacity. f_equal. f_equal. f_equal. unfold A. ring. }
  assert (Hn : 1 <= Z.of_nat (length msg)) by (destruct msg; [contradiction|]; simpl; lia).
  unfold app_encode. rewrite AC, Cap. set (X := A * 3 * k).
  destruct (_ >? _) eqn:C; split; intro H.
  - contradiction.
  - rewrite Z.gtb_ltb, Z.ltb_lt in C. exfalso. zmod.
  - rewrite Z.gtb_ltb, Z.ltb_ge in C. zmod.
  - discriminate.
Qed.

Lemma app_encode_accept_iff_witness :
  app_encode 4 4 (2 * 1) 1 (repeat 0 64) [65; 66] <> None /\
  app_encode 4 4 (2 * 1) 1 (repeat 0 64) [65; 66; 67] = None.
Proof.
  split.
  - apply (app_encode_accept_iff 4 4 1 1 (repeat 0 64) [65; 66]);
      [reflexivity | discriminate | vm_compute; congruence].
  - destruct (app_encode_accept_iff 4 4 1 1 (repeat 0 64) [65; 66; 67]) as [A _];
      [reflexivity | discriminate |].
    destruct (app_encode 4 4 2 1 (repeat 0 64) [65; 66; 67]) eqn:E;
      [|reflexivity].
    exfalso. assert (B := A ltac:(change (2 * 1) with 2; rewrite E; discriminate)).
    vm_compute in B. apply B. reflexivity.
Defined.

(** X12: the capacity App.tsx displays never decreases when the scale or
    the bit depth grows (for non-negative image dimensions and scales). *)
Theorem app_capacity_monotone w h s1 s2 k1 k2 :
  0 <= w -> 0 <= h -> 0 <= s1 <= s2 -> 0 <= k1 <= k2 ->
  app_capacity w h s1 k1 <= app_capacity w h s2 k2.
Proof.
  intros Hw Hh Hs Hk. unfold app_capacity.
  assert (M : w * h * s1 * s1 * 3 * k1 <= w * h * s2 * s2 * 3 * k2).
  { assert (0 <= w * h) by nia.
    assert (s1 * s1 <= s2 * s2) by nia.
    assert (w * h * (s1 * s1) <= w * h * (s2 * s2)) by nia.
    assert (0 <= w * h * (s1 * s1)) by nia.
    nia. }
  apply Z.max_le_compat_l. apply Z.sub_le_mono_r. apply Z.div_le_mono; lia.
Qed.

Lemma app_capacity_monotone_witness :
  app_capacity 20 20 2 1 <= app_capacity 20 20 4 2.
Proof. apply app_capacity_monotone; lia. Defined.
